(** * postinit: deferred logging before initialisation

    A shallow embedding of the Go packages [logger] (logger/logger.go),
    [prog] and [main] (main.go), and proofs of the properties the
    specification states about them.

    The Go program keeps two package-level variables, [logger] and [chann],
    allocates channels on the heap, and writes to standard output.  All of
    this is threaded explicitly through a [World]; every Go function is a
    function from a [World] to a [result], which is either a normal return
    with the new world, a run-time panic, or a goroutine blocked for ever. *)

From stdpp Require Import base strings list pretty.
From Stdlib Require Import ZArith Lia.

Open Scope Z_scope.

(** ** Data model *)

(** [type logDetail struct { message string }] *)
Record logDetail := mklogDetail { message : string }.

(** [type Logger struct { instance string }] *)
Record Logger := mkLogger { instance : string }.

(** A Go [error] value: [nil], or the value built by [errors.New]. *)
Inductive error :=
| nil_error
| errors_New (text : string).

(** A channel value is a reference to a runtime channel object; the
    reference is the index of the object in the heap of channels. *)
Definition chan := nat.

(** The runtime channel object of [make(chan logDetail, n)]: its buffer
    capacity, the buffered values (oldest first) and the closed flag. *)
Record hchan := mkhchan {
  chan_cap : nat;
  chan_buf : list logDetail;
  chan_closed : bool
}.

(** What the program does that is visible from outside or to the runtime:
    a write to standard output, a sleep, and the channel operations. *)
Inductive event :=
| EvPrint (s : string)
| EvSleep (d : Z)
| EvMake (c : chan) (n : nat)
| EvSend (c : chan) (v : logDetail)
| EvRecv (c : chan) (v : logDetail)
| EvClose (c : chan).

(** The whole program state.
    - [logger]: [var logger Logger];
    - [chann]:  [var chann = make([]chan logDetail, 0)];
    - [heap]:   the channel objects allocated so far;
    - [wg]:     the counter of the [sync.WaitGroup] declared in [main];
    - [trace]:  the events so far, oldest first. *)
Record World := mkWorld {
  logger : Logger;
  chann : list chan;
  heap : list hchan;
  wg : Z;
  trace : list event
}.

(** The state at program start: zero-valued [logger], empty [chann]. *)
Definition world0 : World :=
  {| logger := {| instance := EmptyString |};
     chann := [];
     heap := [];
     wg := 0;
     trace := [] |}.

Definition set_logger (l : Logger) (w : World) : World :=
  {| logger := l; chann := chann w; heap := heap w; wg := wg w; trace := trace w |}.

Definition set_chann (cs : list chan) (w : World) : World :=
  {| logger := logger w; chann := cs; heap := heap w; wg := wg w; trace := trace w |}.

Definition set_heap (h : list hchan) (w : World) : World :=
  {| logger := logger w; chann := chann w; heap := h; wg := wg w; trace := trace w |}.

Definition set_wg (n : Z) (w : World) : World :=
  {| logger := logger w; chann := chann w; heap := heap w; wg := n; trace := trace w |}.

Definition log_event (e : event) (w : World) : World :=
  {| logger := logger w; chann := chann w; heap := heap w; wg := wg w;
     trace := trace w ++ [e] |}.

(** ** The monad of Go computations *)

Inductive result (A : Type) :=
| Ok (a : A) (w : World)
| Panic (reason : string)
| Block.

Arguments Ok {A} a w.
Arguments Panic {A} reason.
Arguments Block {A}.

Definition M (A : Type) : Type := World -> result A.

Definition ret {A} (a : A) : M A := fun w => Ok a w.

Definition bind {A B} (m : M A) (k : A -> M B) : M B :=
  fun w => match m w with
           | Ok a w' => k a w'
           | Panic r => Panic r
           | Block => Block
           end.

Declare Scope go_scope.
Delimit Scope go_scope with go.
Notation "'let*' x ':=' m 'in' k" := (bind m (fun x => k))
  (at level 10, x name, m at level 100, k at level 200) : go_scope.
Notation "m ';;' k" := (bind m (fun _ => k))
  (at level 100, k at level 200, right associativity) : go_scope.

Definition get_logger : M Logger := fun w => Ok (logger w) w.
Definition put_logger (l : Logger) : M unit := fun w => Ok tt (set_logger l w).
Definition get_chann : M (list chan) := fun w => Ok (chann w) w.
Definition put_chann (cs : list chan) : M unit := fun w => Ok tt (set_chann cs w).
Definition emit (e : event) : M unit := fun w => Ok tt (log_event e w).

(** [for _, v := range l { body v }]; the range expression is evaluated
    once, before the first iteration. *)
Fixpoint range {A} (l : list A) (body : A -> M unit) : M unit :=
  match l with
  | [] => ret tt
  | v :: l' => bind (body v) (fun _ => range l' body)
  end.

(** ** Runtime and library operations used by the program *)

Definition newline : string := String (Ascii.ascii_of_nat 10) EmptyString.

(** [fmt.Println(s)] and [fmt.Printf] once the format is applied: one
    write to standard output.  The program ignores their results. *)
Definition fmt_Println (s : string) : M unit := emit (EvPrint (s +:+ newline)).
Definition fmt_Printf (s : string) : M unit := emit (EvPrint s).

(** [time.Second], in nanoseconds, and [time.Sleep]. *)
Definition Second : Z := 1000000000.
Definition time_Sleep (d : Z) : M unit := emit (EvSleep d).

(** [make(chan logDetail, n)]: a fresh, open, empty channel. *)
Definition make_chan (n : nat) : M chan := fun w =>
  let c := length (heap w) in
  Ok c (log_event (EvMake c n)
         (set_heap (heap w ++ [{| chan_cap := n; chan_buf := []; chan_closed := false |}]) w)).

(** [c <- v].  No other goroutine receives in this model, so a send that
    finds no free buffer slot blocks for ever; a send on a closed channel
    panics; a reference to no channel object behaves as the nil channel. *)
Definition chan_send (c : chan) (v : logDetail) : M unit := fun w =>
  match heap w !! c with
  | None => Block
  | Some h =>
      if chan_closed h then Panic "send on closed channel"
      else if (length (chan_buf h) <? chan_cap h)%nat
      then Ok tt (log_event (EvSend c v)
                   (set_heap (<[c := {| chan_cap := chan_cap h;
                                         chan_buf := chan_buf h ++ [v];
                                         chan_closed := false |}]> (heap w)) w))
      else Block
  end.

(** [<-c]: the oldest buffered value; on an empty channel, the zero value
    when the channel is closed, and otherwise blocked for ever. *)
Definition chan_recv (c : chan) : M logDetail := fun w =>
  match heap w !! c with
  | None => Block
  | Some h =>
      match chan_buf h with
      | v :: rest =>
          Ok v (log_event (EvRecv c v)
                 (set_heap (<[c := {| chan_cap := chan_cap h;
                                       chan_buf := rest;
                                       chan_closed := chan_closed h |}]> (heap w)) w))
      | [] =>
          if chan_closed h
          then Ok {| message := EmptyString |}
                  (log_event (EvRecv c {| message := EmptyString |}) w)
          else Block
      end
  end.

(** [close(c)]: panics on the nil channel and on a closed channel. *)
Definition chan_close (c : chan) : M unit := fun w =>
  match heap w !! c with
  | None => Panic "close of nil channel"
  | Some h =>
      if chan_closed h then Panic "close of closed channel"
      else Ok tt (log_event (EvClose c)
                   (set_heap (<[c := {| chan_cap := chan_cap h;
                                         chan_buf := chan_buf h;
                                         chan_closed := true |}]> (heap w)) w))
  end.

(** [wg.Add(delta)], [wg.Done()] (which is [wg.Add(-1)]) and [wg.Wait()]. *)
Definition wg_Add (delta : Z) : M unit := fun w =>
  if wg w + delta <? 0 then Panic "sync: negative WaitGroup counter"
  else Ok tt (set_wg (wg w + delta) w).
Definition wg_Done : M unit := wg_Add (-1).
Definition wg_Wait : M unit := fun w =>
  if wg w =? 0 then Ok tt w else Block.

(** ** Package logger *)

Local Open Scope go_scope.

(** The readiness check, [len(logger.instance) > 0]. *)
Definition initialized (l : Logger) : bool :=
  (0 <? String.length (instance l))%nat.

Definition is_ready (w : World) : bool := initialized (logger w).

Definition not_initialized_text : string := "logger instance not initialized".

(** The line [Log] prints for [msg]. *)
Definition log_line (msg : string) : string :=
  "got message to log `" +:+ msg +:+ "`" +:+ newline.

(** [func Log(msg string) error] *)
Definition Log (msg : string) : M error :=
  let* l := get_logger in
  if initialized l
  then fmt_Printf (log_line msg);; ret nil_error
  else ret (errors_New not_initialized_text).

(** [func SafeLog(msg string) error] *)
Definition SafeLog (msg : string) : M error :=
  let* l := get_logger in
  if initialized l
  then Log msg
  else
    let ld := {| message := msg |} in
    let* ch := make_chan 1 in
    chan_send ch ld;;
    let* cs := get_chann in
    put_chann (cs ++ [ch]);;
    ret nil_error.

(** The body of the loop in [Init]. *)
Definition replay (v : chan) : M unit :=
  let* val := chan_recv v in
  Log (message val);;
  chan_close v.

(** [func Init(wg *sync.WaitGroup)]; the wait group [wg] points to is the
    one of [main], kept in the world. *)
Definition Init : M unit :=
  time_Sleep (5 * Second);;
  fmt_Println "Init";;
  put_logger {| instance := "Logger" |};;
  (let* cs := get_chann in range cs replay);;
  wg_Done.

(** ** Package prog *)

(** [func Caller1(msg string) error] *)
Definition Caller1 (msg : string) : M error := Log msg.

(** [func Caller2(msg string) error] *)
Definition Caller2 (msg : string) : M error := SafeLog msg.

(** ** Package main *)

(** Go's [int] is a 64-bit two's complement integer. *)
Definition wrap_int (z : Z) : Z := (z + 2 ^ 63) mod 2 ^ 64 - 2 ^ 63.
Definition int_add (a b : Z) : Z := wrap_int (a + b).

(** [%v] of an [int] and of a non-nil [error]. *)
Definition fmt_int (z : Z) : string := pretty z.
Definition fmt_error (e : error) : string :=
  match e with
  | nil_error => "<nil>"
  | errors_New text => text
  end.

(** [fmt.Sprintf("func: caller1 value-%v", n)] and its caller2 twin. *)
Definition caller1_msg (n : Z) : string := "func: caller1 value-" +:+ fmt_int n.
Definition caller2_msg (n : Z) : string := "func: caller2 value-" +:+ fmt_int n.

(** The text of [fmt.Printf("Error on caller1 %v: %v\n", n, err)]. *)
Definition caller1_error_line (n : Z) (e : error) : string :=
  "Error on caller1 " +:+ fmt_int n +:+ ": " +:+ fmt_error e +:+ newline.
Definition caller2_error_line (n : Z) (e : error) : string :=
  "Error on caller2 " +:+ fmt_int n +:+ ": " +:+ fmt_error e +:+ newline.

(** The body of the [for] loop of [main], at loop variable [i]. *)
Definition main_iteration (i : Z) : M unit :=
  let* err1 := Caller1 (caller1_msg (int_add i 1)) in
  match err1 with
  | nil_error => ret tt
  | _ => fmt_Printf (caller1_error_line (int_add i 1) err1)
  end;;
  let* err2 := Caller2 (caller2_msg (int_add i 1)) in
  match err2 with
  | nil_error => ret tt
  | _ => fmt_Printf (caller2_error_line (int_add i 1) err2)
  end.

(** [func main()].

    [go logger.Init(&wg)] starts [Init] in a goroutine of its own, which
    sleeps before it touches the shared variables.  The parameter
    [init_at] fixes the schedule: it is the number of iterations of the
    loop that the main goroutine has completed when the [Init] goroutine
    runs (as one block, between two iterations); with [init_at >= 5] the
    whole loop runs first and [Init] runs while [main] is in [wg.Wait()]. *)
Definition main_loop_step (init_at : nat) (i : Z) : M unit :=
  (if decide (Z.of_nat init_at = i) then Init else ret tt);;
  main_iteration i.

Definition main (init_at : nat) : M unit :=
  wg_Add 1;;
  range (seqZ 0 5) (main_loop_step init_at);;
  (if decide (5 <= Z.of_nat init_at) then Init else ret tt);;
  wg_Wait.

(** ** Sequences of calls on the logger package *)

(** A client of the package calls its three exported functions, one call
    at a time. *)
Inductive call :=
| CLog (msg : string)
| CSafeLog (msg : string)
| CInit.

(** One call, keeping the error it returns ([Init] returns nothing). *)
Definition run_call (c : call) : M (option error) :=
  match c with
  | CLog msg => let* e := Log msg in ret (Some e)
  | CSafeLog msg => let* e := SafeLog msg in ret (Some e)
  | CInit => Init;; ret None
  end.

(** A sequence of calls, with the list of what they returned. *)
Fixpoint run_calls (cs : list call) : M (list (option error)) :=
  match cs with
  | [] => ret []
  | c :: cs' =>
      let* r := run_call c in
      let* rs := run_calls cs' in
      ret (r :: rs)
  end.

Definition is_init (c : call) : bool :=
  match c with CInit => true | _ => false end.

(** The payloads handed to [SafeLog] in a sequence of calls, in order. *)
Definition safe_payloads (cs : list call) : list string :=
  omap (fun c => match c with CSafeLog msg => Some msg | _ => None end) cs.

(** ** Observations on a world *)

(** What was written to standard output, one entry per write. *)
Definition stdout (w : World) : list string :=
  omap (fun e => match e with EvPrint s => Some s | _ => None end) (trace w).

(** The channels closed so far, one entry per [close]. *)
Definition closes (w : World) : list chan :=
  omap (fun e => match e with EvClose c => Some c | _ => None end) (trace w).

(** The payload at the front of channel [c], if it holds one. *)
Definition front (h : list hchan) (c : chan) : option string :=
  match h !! c with
  | Some ch => message <$> head (chan_buf ch)
  | None => None
  end.

(** The payloads waiting in the channels of [chann], in queue order. *)
Definition pending (w : World) : list string :=
  omap (front (heap w)) (chann w).

Definition result_world {A} (r : result A) : option World :=
  match r with Ok _ w => Some w | _ => None end.

(** The state of [main] after [wg.Add(1)]. *)
Definition main_after_add : World := set_wg 1 world0.

(** ** The state of the queue before it is drained *)

(** Every channel in [chann] is a distinct, open channel of capacity 1
    that holds exactly one value. *)
Definition queue_ok (w : World) : Prop :=
  NoDup (chann w) /\
  forall c, c ∈ chann w ->
    exists m, heap w !! c =
      Some {| chan_cap := 1; chan_buf := [{| message := m |}]; chan_closed := false |}.

(** The same, as a check that runs. *)
Definition one_value (h : list hchan) (c : chan) : bool :=
  match h !! c with
  | Some {| chan_cap := 1%nat; chan_buf := [_]; chan_closed := false |} => true
  | _ => false
  end.

Definition queue_okb (w : World) : bool :=
  bool_decide (NoDup (chann w)) && forallb (one_value (heap w)) (chann w).

(** The world [SafeLog msg] leaves when the logger is not initialised. *)
Definition enqueued (msg : string) (w : World) : World :=
  {| logger := logger w;
     chann := chann w ++ [length (heap w)];
     heap := heap w ++ [{| chan_cap := 1;
                           chan_buf := [{| message := msg |}];
                           chan_closed := false |}];
     wg := wg w;
     trace := trace w ++ [EvMake (length (heap w)) 1;
                          EvSend (length (heap w)) {| message := msg |}] |}.

(** ** The outcomes of the replayed calls

    [Init] calls [Log] for every queued entry and drops what [Log]
    returns.  [Init_outcomes] is [Init] with these values collected, so
    that they can be talked about. *)
Definition replay_outcome (v : chan) : M error :=
  let* val := chan_recv v in
  let* e := Log (message val) in
  chan_close v;;
  ret e.

Fixpoint replay_outcomes (cs : list chan) : M (list error) :=
  match cs with
  | [] => ret []
  | v :: cs' =>
      let* e := replay_outcome v in
      let* es := replay_outcomes cs' in
      ret (e :: es)
  end.

Definition Init_outcomes : M (list error) :=
  time_Sleep (5 * Second);;
  fmt_Println "Init";;
  put_logger {| instance := "Logger" |};;
  let* es := (let* cs := get_chann in replay_outcomes cs) in
  wg_Done;;
  ret es.

(** Forgetting the value a computation returns. *)
Definition forget {A} (r : result A) : result unit :=
  match r with
  | Ok _ w => Ok tt w
  | Panic s => Panic s
  | Block => Block
  end.

(** ** Overlapping calls of [SafeLog]

    Nothing in the package orders the accesses of two goroutines to
    [logger] and [chann].  To see what overlapping calls can do, a call of
    [SafeLog] is cut into its accesses to shared state, each one a step of
    its own; a schedule picks the goroutine that takes the next step. *)
Module Interleaved.

(** Where a goroutine running [SafeLog(msg)] stands. *)
Inductive pc :=
| AtEntry (msg : string)                       (* reads [logger], in SafeLog *)
| AtLog (msg : string)                         (* reads [logger], in Log *)
| AtPrintf (msg : string)                      (* fmt.Printf in Log *)
| AtMake (msg : string)                        (* ch := make(chan logDetail, 1) *)
| AtSend (ld : logDetail) (ch : chan)          (* ch <- ld *)
| AtReadChann (ch : chan)                      (* reads [chann] for append *)
| AtWriteChann (ch : chan) (old : list chan)   (* chann = append(old, ch) *)
| Returned (e : error).

(** One step of one goroutine. *)
Definition step (p : pc) : M pc :=
  match p with
  | AtEntry msg =>
      let* l := get_logger in
      ret (if initialized l then AtLog msg else AtMake msg)
  | AtLog msg =>
      let* l := get_logger in
      ret (if initialized l then AtPrintf msg
           else Returned (errors_New not_initialized_text))
  | AtPrintf msg =>
      fmt_Printf (log_line msg);; ret (Returned nil_error)
  | AtMake msg =>
      let* ch := make_chan 1 in ret (AtSend {| message := msg |} ch)
  | AtSend ld ch =>
      chan_send ch ld;; ret (AtReadChann ch)
  | AtReadChann ch =>
      let* cs := get_chann in ret (AtWriteChann ch cs)
  | AtWriteChann ch old =>
      put_chann (old ++ [ch]);; ret (Returned nil_error)
  | Returned e => ret (Returned e)
  end.

(** Goroutine [i] of [ts] takes a step. *)
Definition step_at (i : nat) (ts : list pc) : M (list pc) :=
  match ts !! i with
  | None => ret ts
  | Some p => let* p' := step p in ret (<[i := p']> ts)
  end.

Fixpoint run_schedule (sched : list nat) (ts : list pc) : M (list pc) :=
  match sched with
  | [] => ret ts
  | i :: sched' => let* ts' := step_at i ts in run_schedule sched' ts'
  end.

(** One goroutine taking [n] steps on its own. *)
Fixpoint run_alone (n : nat) (p : pc) : M pc :=
  match n with
  | O => ret p
  | S n' => let* p' := step p in run_alone n' p'
  end.

Definition returned (p : pc) : bool :=
  match p with Returned _ => true | _ => false end.

(** The schedule in which goroutine 0 makes [k] steps, then goroutine 1
    makes [k] steps, and so on up to goroutine [n - 1]. *)
Definition serial (k n : nat) : list nat :=
  flat_map (fun i => replicate k i) (seq 0 n).

(** Calling [SafeLog] on each payload in turn. *)
Fixpoint SafeLog_each (msgs : list string) : M (list pc) :=
  match msgs with
  | [] => ret []
  | msg :: msgs' =>
      let* e := SafeLog msg in
      let* ps := SafeLog_each msgs' in
      ret (Returned e :: ps)
  end.

(** No enqueue is lost, whatever the schedule: when all the goroutines
    have returned, the queue holds one entry per call. *)
Definition no_lost_update : Prop :=
  forall (sched : list nat) (msgs : list string) (ts : list pc) (w' : World),
    run_schedule sched (AtEntry <$> msgs) world0 = Ok ts w' ->
    forallb returned ts = true ->
    length (chann w') = length msgs.

End Interleaved.

(** ** Definitions used in the statements *)

(** The world after the loop body of [Init] has handled channel [c], which
    held the payload [m]. *)
Definition replayed (c : chan) (m : string) (w : World) : World :=
  {| logger := logger w;
     chann := chann w;
     heap := <[c := {| chan_cap := 1; chan_buf := []; chan_closed := true |}]> (heap w);
     wg := wg w;
     trace := trace w ++ [EvRecv c {| message := m |};
                          EvPrint (log_line m);
                          EvClose c] |}.

Definition init_line : string := "Init" +:+ newline.

Definition no_init (cs : list call) : bool := forallb (fun c => negb (is_init c)) cs.

(** What each call of a sequence made before [Init] returns. *)
Definition early_result (c : call) : option error :=
  match c with
  | CLog _ => Some (errors_New not_initialized_text)
  | CSafeLog _ => Some nil_error
  | CInit => None
  end.

(** The payloads of the [Log] and [SafeLog] calls of a sequence. *)
Definition payloads (cs : list call) : list string :=
  omap (fun c => match c with
                 | CLog msg | CSafeLog msg => Some msg
                 | CInit => None
                 end) cs.


Definition error_line (n : string) : string :=
  "Error on caller1 " +:+ n +:+ ": logger instance not initialized" +:+ newline.

Definition replayed_line (n : string) : string :=
  "got message to log `func: caller2 value-" +:+ n +:+ "`" +:+ newline.

(** The console output expected of [main]. *)
Definition expected_output : list string :=
  [ error_line "1"; error_line "2"; error_line "3"; error_line "4"; error_line "5";
    "Init" +:+ newline;
    replayed_line "1"; replayed_line "2"; replayed_line "3"; replayed_line "4";
    replayed_line "5" ].

(** The calls [main] makes on the logger package, with [Init] last. *)
Definition scenario_calls : list call :=
  [ CLog "func: caller1 value-1"; CSafeLog "func: caller2 value-1";
    CLog "func: caller1 value-2"; CSafeLog "func: caller2 value-2";
    CLog "func: caller1 value-3"; CSafeLog "func: caller2 value-3";
    CLog "func: caller1 value-4"; CSafeLog "func: caller2 value-4";
    CLog "func: caller1 value-5"; CSafeLog "func: caller2 value-5";
    CInit ].

Definition NotInitialized : option error :=
  Some (errors_New "logger instance not initialized").

Definition scenario_results : list (option error) :=
  [ NotInitialized; Some nil_error; NotInitialized; Some nil_error;
    NotInitialized; Some nil_error; NotInitialized; Some nil_error;
    NotInitialized; Some nil_error; None ].

(** ** The output of [main], schedule by schedule *)

Definition numerals : list string := ["1"; "2"; "3"; "4"; "5"].

(** The lines [main] can print: the error line of each [Caller1] call,
    and the [Log] line of each payload. *)
Definition error_lines : list string := error_line <$> numerals.
Definition caller1_lines : list string :=
  (fun n => log_line ("func: caller1 value-" +:+ n)) <$> numerals.
Definition caller2_lines : list string := replayed_line <$> numerals.

(** The entries of [out] that are among [ls], in the order of [out]. *)
Definition lines_among (ls out : list string) : list string :=
  List.filter (fun s => bool_decide (s ∈ ls)) out.

(** ** Goroutines between their steps

    What holds of the goroutines of [Interleaved] and of the world while
    calls of [SafeLog] overlap before [Init]. *)
Module Overlap.










End Overlap.

(** ** Tactics *)

Ltac go_unfold :=
  unfold bind, ret, get_logger, put_logger, get_chann, put_chann,
    fmt_Printf, fmt_Println, time_Sleep, emit in *.

(** * Proofs *)

(** ** The three functions, case by case *)

Lemma Log_when_ready msg w :
  is_ready w = true ->
  Log msg w = Ok nil_error (log_event (EvPrint (log_line msg)) w).
Proof.
  unfold is_ready, Log. go_unfold. intros ->. reflexivity.
Qed.

Lemma Log_when_not_ready msg w :
  is_ready w = false ->
  Log msg w = Ok (errors_New not_initialized_text) w.
Proof.
  unfold is_ready, Log. go_unfold. intros ->. reflexivity.
Qed.

Lemma send_on_fresh (h : list hchan) (x y : hchan) :
  <[length h := y]> (h ++ [x]) = h ++ [y].
Proof.
  rewrite insert_app_r_alt by lia.
  replace (length h - length h)%nat with 0%nat by lia. reflexivity.
Qed.

Lemma SafeLog_when_not_ready msg w :
  is_ready w = false ->
  SafeLog msg w = Ok nil_error (enqueued msg w).
Proof.
  unfold is_ready, SafeLog. go_unfold. intros ->.
  unfold make_chan, chan_send. cbn [heap set_heap log_event].
  rewrite list_lookup_middle by reflexivity.
  cbn [chan_closed chan_buf chan_cap length Nat.ltb Nat.leb].
  rewrite send_on_fresh.
  unfold enqueued, set_chann, log_event, set_heap. cbn.
  rewrite <- app_assoc. reflexivity.
Qed.

Lemma SafeLog_when_ready msg w :
  is_ready w = true ->
  SafeLog msg w = Ok nil_error (log_event (EvPrint (log_line msg)) w).
Proof.
  intros H. rewrite <- (Log_when_ready msg w H).
  unfold is_ready in H. unfold SafeLog. go_unfold. rewrite H. reflexivity.
Qed.

(** ** The printed line identifies the payload *)

Lemma append_length (s t : string) :
  String.length (s +:+ t) = (String.length s + String.length t)%nat.
Proof. induction s as [|a s IH]; [reflexivity|]. simpl. f_equal. exact IH. Qed.

Lemma append_cancel_r (u s t : string) : s +:+ u = t +:+ u -> s = t.
Proof.
  revert t. induction s as [|a s IH]; intros [|b t] H.
  - reflexivity.
  - apply (f_equal String.length) in H. rewrite !append_length in H. simpl in H. lia.
  - apply (f_equal String.length) in H. rewrite !append_length in H. simpl in H. lia.
  - simpl in H. injection H as -> H. f_equal. apply IH. exact H.
Qed.

Lemma log_line_inj (m1 m2 : string) : log_line m1 = log_line m2 -> m1 = m2.
Proof.
  unfold log_line. simpl. intros H. injection H as H.
  exact (append_cancel_r ("`" +:+ newline) m1 m2 H).
Qed.

(** ** Projections of the trace *)

Lemma stdout_log_event e w :
  stdout (log_event e w) =
  stdout w ++ match e with EvPrint s => [s] | _ => [] end.
Proof.
  unfold stdout, log_event. cbn [trace]. rewrite omap_app.
  destruct e; reflexivity.
Qed.

Lemma closes_log_event e w :
  closes (log_event e w) =
  closes w ++ match e with EvClose c => [c] | _ => [] end.
Proof.
  unfold closes, log_event. cbn [trace]. rewrite omap_app.
  destruct e; reflexivity.
Qed.

Lemma stdout_enqueued msg w : stdout (enqueued msg w) = stdout w.
Proof.
  unfold stdout, enqueued. cbn [trace]. rewrite omap_app. cbn.
  apply app_nil_r.
Qed.

Lemma closes_enqueued msg w : closes (enqueued msg w) = closes w.
Proof.
  unfold closes, enqueued. cbn [trace]. rewrite omap_app. cbn.
  apply app_nil_r.
Qed.

(** ** The queue invariant *)

(** Queued channels are allocated channels. *)
Lemma queue_ok_bound w c : queue_ok w -> c ∈ chann w -> (c < length (heap w))%nat.
Proof.
  intros [_ H] Hc. destruct (H c Hc) as [m Hm].
  eapply lookup_lt_Some. exact Hm.
Qed.

Lemma queue_ok_world0 : queue_ok world0.
Proof.
  split; cbn.
  - constructor.
  - intros c Hc. inversion Hc.
Qed.

Lemma one_value_spec h c :
  one_value h c = true <->
  exists m, h !! c =
    Some {| chan_cap := 1; chan_buf := [{| message := m |}]; chan_closed := false |}.
Proof.
  unfold one_value. split.
  - destruct (h !! c) as [[cap buf closed]|]; [|discriminate].
    destruct cap as [|[|cap]]; try discriminate.
    destruct buf as [|[m] [|v buf]]; try discriminate.
    destruct closed; [discriminate|]. intros _. exists m. reflexivity.
  - intros [m ->]. reflexivity.
Qed.

Lemma queue_okb_correct w : queue_okb w = true <-> queue_ok w.
Proof.
  unfold queue_okb, queue_ok. rewrite andb_true_iff, bool_decide_eq_true.
  rewrite List.forallb_forall.
  split; intros [Hnd H]; (split; [exact Hnd|]); intros c Hc.
  - apply one_value_spec, H, list_elem_of_In, Hc.
  - apply one_value_spec, H, list_elem_of_In, Hc.
Qed.

Lemma queue_ok_enqueued msg w : queue_ok w -> queue_ok (enqueued msg w).
Proof.
  intros Hq. pose proof Hq as [Hnd Hall]. split; cbn [chann heap enqueued].
  - apply NoDup_app. split; [exact Hnd|]. split.
    + intros c Hc Hc'. apply list_elem_of_singleton in Hc'. subst c.
      pose proof (queue_ok_bound w _ Hq Hc). lia.
    + apply NoDup_singleton.
  - intros c Hc. apply elem_of_app in Hc as [Hc|Hc].
    + destruct (Hall c Hc) as [m Hm]. exists m.
      rewrite lookup_app_l; [exact Hm|]. eapply lookup_lt_Some; exact Hm.
    + apply list_elem_of_singleton in Hc. subst c. exists msg.
      apply list_lookup_middle. reflexivity.
Qed.

Lemma omap_ext_elem {A B} (f g : A -> option B) (l : list A) :
  (forall x, x ∈ l -> f x = g x) -> omap f l = omap g l.
Proof.
  induction l as [|a l IH]; intros H; [reflexivity|].
  cbn. rewrite (H a) by left.
  rewrite IH; [reflexivity|]. intros x Hx. apply H. right. exact Hx.
Qed.

Lemma front_app_l h h' c : (c < length h)%nat -> front (h ++ h') c = front h c.
Proof. intros H. unfold front. rewrite lookup_app_l by exact H. reflexivity. Qed.

(** The payloads waiting in the queue grow at the back. *)
Lemma pending_enqueued msg w :
  queue_ok w -> pending (enqueued msg w) = pending w ++ [msg].
Proof.
  intros Hq. unfold pending. cbn [chann heap enqueued].
  rewrite omap_app. f_equal.
  - apply omap_ext_elem. intros c Hc. apply front_app_l.
    exact (queue_ok_bound w c Hq Hc).
  - cbn. unfold front. rewrite list_lookup_middle by reflexivity. reflexivity.
Qed.

Lemma pending_length w : queue_ok w -> length (pending w) = length (chann w).
Proof.
  intros [_ H]. unfold pending.
  induction (chann w) as [|c cs IH]; [reflexivity|].
  cbn. destruct (H c) as [m Hm]; [left|].
  unfold front at 1. rewrite Hm. cbn. f_equal. apply IH.
  intros c' Hc'. apply H. right. exact Hc'.
Qed.

(** ** Draining the queue *)

Lemma replay_outcome_ok c m w :
  is_ready w = true ->
  heap w !! c =
    Some {| chan_cap := 1; chan_buf := [{| message := m |}]; chan_closed := false |} ->
  replay_outcome c w = Ok nil_error (replayed c m w).
Proof.
  intros Hr Hc. pose proof (lookup_lt_Some _ _ _ Hc) as Hlt.
  unfold replay_outcome, bind, chan_recv. rewrite Hc. cbn [chan_buf chan_cap chan_closed].
  rewrite Log_when_ready by exact Hr. cbn [message].
  unfold chan_close. cbn [heap log_event set_heap].
  rewrite list_lookup_insert_eq by exact Hlt. cbn [chan_closed chan_cap chan_buf].
  rewrite list_insert_insert_eq.
  unfold ret, replayed, log_event, set_heap. cbn.
  rewrite <- !app_assoc. reflexivity.
Qed.

Lemma replay_forget c w : replay c w = forget (replay_outcome c w).
Proof.
  unfold replay, replay_outcome, bind, ret.
  destruct (chan_recv c w) as [val w1| |]; [|reflexivity|reflexivity].
  destruct (Log (message val) w1) as [e w2| |]; [|reflexivity|reflexivity].
  destruct (chan_close c w2) as [[] w3| |]; reflexivity.
Qed.

Lemma range_replay_forget cs w :
  range cs replay w = forget (replay_outcomes cs w).
Proof.
  revert w. induction cs as [|c cs IH]; intros w; [reflexivity|].
  cbn [range replay_outcomes]. unfold bind at 1 2. rewrite replay_forget.
  destruct (replay_outcome c w) as [e w1| |]; cbn [forget]; [|reflexivity|reflexivity].
  rewrite IH. unfold bind, ret.
  destruct (replay_outcomes cs w1); reflexivity.
Qed.

Lemma Init_forget w : Init w = forget (Init_outcomes w).
Proof.
  unfold Init, Init_outcomes. go_unfold. cbn beta.
  rewrite range_replay_forget.
  match goal with |- context [replay_outcomes ?cs ?w1] =>
    destruct (replay_outcomes cs w1) as [es w2| |] end;
    cbn [forget]; [|reflexivity|reflexivity].
  destruct (wg_Done w2) as [[] w3| |]; reflexivity.
Qed.

(** The loop of [Init] on a list of distinct channels that each hold one
    value: every channel is received from, logged and closed, in order. *)
Lemma drain_ok cs : forall w,
  is_ready w = true ->
  NoDup cs ->
  (forall c, c ∈ cs -> exists m, heap w !! c =
     Some {| chan_cap := 1; chan_buf := [{| message := m |}]; chan_closed := false |}) ->
  exists w',
    replay_outcomes cs w = Ok (replicate (length cs) nil_error) w' /\
    logger w' = logger w /\ chann w' = chann w /\ wg w' = wg w /\
    stdout w' = stdout w ++ (log_line <$> omap (front (heap w)) cs) /\
    closes w' = closes w ++ cs /\
    length (heap w') = length (heap w) /\
    (forall c, c ∈ cs -> heap w' !! c =
       Some {| chan_cap := 1; chan_buf := []; chan_closed := true |}) /\
    (forall c, c ∉ cs -> heap w' !! c = heap w !! c).
Proof.
  induction cs as [|c cs IH]; intros w Hr Hnd Hall.
  - exists w. cbn. rewrite !app_nil_r.
    repeat split; try reflexivity. intros c Hc. inversion Hc.
  - apply NoDup_cons in Hnd as [Hnotin Hnd].
    destruct (Hall c) as [m Hm]; [left|].
    pose proof (lookup_lt_Some _ _ _ Hm) as Hlt.
    destruct (IH (replayed c m w)) as (w' & Hrun & Hl & Hc & Hw & Hout & Hcl & Hlen & Hin & Hout').
    + exact Hr.
    + exact Hnd.
    + intros c' Hc'. destruct (Hall c') as [m' Hm']; [right; exact Hc'|].
      exists m'. cbn [heap replayed].
      rewrite list_lookup_insert_ne; [exact Hm'|]. intros ->. contradiction.
    + exists w'. cbn [replay_outcomes]. unfold bind at 1.
      rewrite (replay_outcome_ok c m w Hr Hm). unfold bind. rewrite Hrun.
      split; [reflexivity|].
      split; [exact Hl|]. split; [exact Hc|]. split; [exact Hw|].
      split; [|split; [|split; [|split]]].
      * rewrite Hout. unfold stdout at 1. cbn [trace replayed].
        rewrite omap_app. cbn [omap list_omap app].
        fold (stdout w). cbn [omap list_omap]. unfold front at 2. rewrite Hm.
        cbn [fmap option_fmap option_map head chan_buf message list_fmap].
        rewrite <- app_assoc. cbn [app]. do 3 f_equal.
        apply omap_ext_elem. intros c' Hc'. unfold front. cbn [heap replayed].
        rewrite list_lookup_insert_ne; [reflexivity|]. intros ->. contradiction.
      * rewrite Hcl. unfold closes at 1. cbn [trace replayed].
        rewrite omap_app. cbn. fold (closes w).
        rewrite <- app_assoc. reflexivity.
      * rewrite Hlen. cbn [heap replayed]. apply length_insert.
      * intros c' Hc'. apply elem_of_cons in Hc' as [->|Hc'].
        -- rewrite Hout' by exact Hnotin. cbn [heap replayed].
           apply list_lookup_insert_eq. exact Hlt.
        -- apply Hin. exact Hc'.
      * intros c' Hc'. apply not_elem_of_cons in Hc' as [Hne Hc'].
        rewrite Hout' by exact Hc'. cbn [heap replayed].
        apply list_lookup_insert_ne. congruence.
Qed.

(** ** [Init] on a well-formed queue *)

Lemma Init_outcomes_ok w :
  queue_ok w -> 0 < wg w ->
  exists w',
    Init_outcomes w = Ok (replicate (length (chann w)) nil_error) w' /\
    is_ready w' = true /\ chann w' = chann w /\ wg w' = wg w - 1 /\
    stdout w' = stdout w ++ init_line :: (log_line <$> pending w) /\
    closes w' = closes w ++ chann w /\
    length (heap w') = length (heap w) /\
    (forall c, c ∈ chann w -> heap w' !! c =
       Some {| chan_cap := 1; chan_buf := []; chan_closed := true |}).
Proof.
  intros [Hnd Hall] Hwg.
  set (w1 := set_logger {| instance := "Logger" |}
               (log_event (EvPrint init_line) (log_event (EvSleep (5 * Second)) w))).
  destruct (drain_ok (chann w) w1) as
    (w2 & Hrun & Hl & Hc & Hw & Hout & Hcl & Hlen & Hin & _);
    [reflexivity | exact Hnd | exact Hall |].
  exists (set_wg (wg w - 1) w2).
  unfold Init_outcomes. go_unfold. cbn beta iota.
  change (chann (set_logger _ _)) with (chann w).
  fold init_line. fold w1. rewrite Hrun.
  unfold wg_Done, wg_Add. rewrite Hw. cbn [wg w1 set_logger log_event].
  replace (wg w + -1) with (wg w - 1) by lia.
  destruct (Z.ltb_spec (wg w - 1) 0) as [Hneg|_]; [lia|].
  split; [reflexivity|]. split; [unfold is_ready; cbn [logger set_wg]; rewrite Hl; reflexivity|].
  split; [exact Hc|]. split; [reflexivity|].
  split; [|split; [|split]].
  - change (stdout (set_wg (wg w - 1) w2)) with (stdout w2). rewrite Hout.
    unfold w1. change (stdout (set_logger ?l ?w)) with (stdout w).
    rewrite !stdout_log_event. rewrite app_nil_r, <- app_assoc. reflexivity.
  - change (closes (set_wg (wg w - 1) w2)) with (closes w2). rewrite Hcl.
    unfold w1. change (closes (set_logger ?l ?w)) with (closes w).
    rewrite !closes_log_event. rewrite !app_nil_r. reflexivity.
  - exact Hlen.
  - exact Hin.
Qed.

Lemma Init_ok w :
  queue_ok w -> 0 < wg w ->
  exists w',
    Init w = Ok tt w' /\
    is_ready w' = true /\ chann w' = chann w /\ wg w' = wg w - 1 /\
    stdout w' = stdout w ++ init_line :: (log_line <$> pending w) /\
    closes w' = closes w ++ chann w.
Proof.
  intros Hq Hwg.
  destruct (Init_outcomes_ok w Hq Hwg) as (w' & Hrun & Hr & Hc & Hw & Hout & Hcl & _).
  exists w'. rewrite Init_forget, Hrun. cbn [forget]. tauto.
Qed.

(** ** Sequences of calls *)

Lemma run_calls_app cs1 cs2 w :
  run_calls (cs1 ++ cs2) w =
  match run_calls cs1 w with
  | Ok rs1 w1 =>
      match run_calls cs2 w1 with
      | Ok rs2 w2 => Ok (rs1 ++ rs2) w2
      | Panic r => Panic r
      | Block => Block
      end
  | Panic r => Panic r
  | Block => Block
  end.
Proof.
  revert w. induction cs1 as [|c cs1 IH]; intros w.
  - cbn. unfold ret. destruct (run_calls cs2 w); reflexivity.
  - cbn [run_calls app]. unfold bind at 1 3.
    destruct (run_call c w) as [r w1| |]; [|reflexivity|reflexivity].
    unfold bind, ret. rewrite IH.
    destruct (run_calls cs1 w1) as [rs1 w2| |]; [|reflexivity|reflexivity].
    destruct (run_calls cs2 w2); reflexivity.
Qed.

(** Calls made before [Init]: [Log] fails and changes nothing, [SafeLog]
    queues its payload. *)
Lemma calls_before_init cs : forall w,
  queue_ok w -> is_ready w = false -> no_init cs = true ->
  exists w',
    run_calls cs w = Ok (early_result <$> cs) w' /\
    queue_ok w' /\ is_ready w' = false /\ wg w' = wg w /\
    stdout w' = stdout w /\ closes w' = closes w /\
    pending w' = pending w ++ safe_payloads cs /\
    length (chann w') = (length (chann w) + length (safe_payloads cs))%nat.
Proof.
  induction cs as [|c cs IH]; intros w Hq Hr Hn.
  - exists w. cbn. rewrite app_nil_r, Nat.add_0_r. tauto.
  - cbn in Hn. apply andb_prop in Hn as [Hc Hn].
    destruct c as [msg|msg|]; [| |discriminate Hc].
    + destruct (IH w Hq Hr Hn) as (w' & Hrun & H).
      exists w'. cbn [run_calls run_call]. unfold bind, ret.
      rewrite Log_when_not_ready by exact Hr. rewrite Hrun.
      split; [reflexivity|exact H].
    + destruct (IH (enqueued msg w)) as (w' & Hrun & Hq' & Hr' & Hw & Hout & Hcl & Hp & Hlen);
        [apply queue_ok_enqueued; exact Hq | exact Hr | exact Hn |].
      exists w'. cbn [run_calls run_call]. unfold bind, ret.
      rewrite SafeLog_when_not_ready by exact Hr. rewrite Hrun.
      split; [reflexivity|]. split; [exact Hq'|]. split; [exact Hr'|].
      split; [exact Hw|].
      split; [rewrite Hout; apply stdout_enqueued|].
      split; [rewrite Hcl; apply closes_enqueued|].
      split.
      * rewrite Hp, pending_enqueued by exact Hq. cbn. rewrite <- app_assoc. reflexivity.
      * rewrite Hlen. cbn [chann enqueued]. rewrite length_app.
        change (safe_payloads (CSafeLog msg :: cs)) with (msg :: safe_payloads cs).
        cbn [length]. lia.
Qed.

(** Calls made after [Init]: both functions print and return nil; the
    queue and the channels are left alone. *)
Lemma calls_after_init cs : forall w,
  is_ready w = true -> no_init cs = true ->
  exists w',
    run_calls cs w = Ok ((fun _ => Some nil_error) <$> cs) w' /\
    is_ready w' = true /\ chann w' = chann w /\ heap w' = heap w /\ wg w' = wg w /\
    stdout w' = stdout w ++ (log_line <$> payloads cs) /\
    closes w' = closes w.
Proof.
  induction cs as [|c cs IH]; intros w Hr Hn.
  - exists w. cbn. rewrite app_nil_r. tauto.
  - cbn in Hn. apply andb_prop in Hn as [Hc Hn].
    destruct (IH (log_event (EvPrint (log_line
                match c with CLog m | CSafeLog m => m | CInit => EmptyString end)) w))
      as (w' & Hrun & Hr' & Hch & Hh & Hw & Hout & Hcl); [exact Hr | exact Hn |].
    exists w'.
    destruct c as [msg|msg|]; [| |discriminate Hc];
      cbn [run_calls run_call]; unfold bind, ret;
      [rewrite Log_when_ready by exact Hr | rewrite SafeLog_when_ready by exact Hr];
      rewrite Hrun;
      (split; [reflexivity|]); (split; [exact Hr'|]); (split; [exact Hch|]);
      (split; [exact Hh|]); (split; [exact Hw|]);
      (split; [rewrite Hout, stdout_log_event, <- app_assoc; reflexivity
              | rewrite Hcl, closes_log_event; apply app_nil_r]).
Qed.

(** ** Queue, then replay *)

(** C1. Take any sequence of calls of [Log] and [SafeLog] made while the
    logger is not initialised, and let [Init] run after them.  [Init]
    completes, and what it writes after its own line is exactly one [Log]
    line per queued payload, in the order in which the [SafeLog] calls
    were made (after the lines of the entries that were already waiting):
    nothing is lost, nothing is printed twice, the order is kept. *)
Theorem replay_in_arrival_order (cs : list call) (w : World) :
  queue_ok w -> is_ready w = false -> 0 < wg w -> no_init cs = true ->
  exists rs w',
    run_calls (cs ++ [CInit]) w = Ok rs w' /\
    stdout w' =
      stdout w ++ init_line :: (log_line <$> (pending w ++ safe_payloads cs)) /\
    length (log_line <$> (pending w ++ safe_payloads cs)) =
      (length (chann w) + length (safe_payloads cs))%nat.
Proof.
  intros Hq Hr Hwg Hn.
  destruct (calls_before_init cs w Hq Hr Hn)
    as (w1 & Hrun & Hq1 & Hr1 & Hw1 & Hout1 & Hcl1 & Hp1 & Hlen1).
  destruct (Init_ok w1 Hq1) as (w2 & HInit & Hr2 & Hc2 & Hw2 & Hout2 & Hcl2); [lia|].
  exists ((early_result <$> cs) ++ [None]), w2.
  rewrite run_calls_app, Hrun. cbn [run_calls run_call]. unfold bind, ret.
  rewrite HInit. split; [reflexivity|]. split.
  - rewrite Hout2, Hout1, Hp1. reflexivity.
  - rewrite length_fmap, length_app, pending_length by exact Hq. reflexivity.
Qed.

Lemma replay_in_arrival_order_witness :
  exists rs w',
    run_calls ([CSafeLog "a"; CLog "x"; CSafeLog "b"] ++ [CInit]) main_after_add
      = Ok rs w' /\
    stdout w' = [init_line; log_line "a"; log_line "b"].
Proof.
  destruct (replay_in_arrival_order [CSafeLog "a"; CLog "x"; CSafeLog "b"] main_after_add)
    as (rs & w' & Hrun & Hout & _).
  - apply queue_okb_correct. reflexivity.
  - reflexivity.
  - reflexivity.
  - reflexivity.
  - exists rs, w'. split; [exact Hrun | exact Hout].
Defined.

(** ** Strict calls *)

(** C2. A call of [Log] made while [len(logger.instance) > 0] is false
    returns the error "logger instance not initialized" and leaves the
    whole state as it was: nothing is printed, no variable and no channel
    changes. *)
Theorem Log_fails_fast (msg : string) (w : World) :
  is_ready w = false ->
  Log msg w = Ok (errors_New "logger instance not initialized") w.
Proof. exact (Log_when_not_ready msg w). Qed.

Lemma Log_fails_fast_witness :
  Log "hello" world0 = Ok (errors_New "logger instance not initialized") world0.
Proof. apply (Log_fails_fast "hello" world0). reflexivity. Defined.

(** ** Deferred calls *)

(** C3. When the logger is initialised, [SafeLog] does exactly what [Log]
    does on the same payload: it prints the line at once, returns what
    [Log] returns, and leaves the queue and the channels untouched. *)
Theorem SafeLog_ready_is_Log (msg : string) (w : World) :
  is_ready w = true ->
  SafeLog msg w = Log msg w /\
  exists w',
    SafeLog msg w = Ok nil_error w' /\
    stdout w' = stdout w ++ [log_line msg] /\
    chann w' = chann w /\ heap w' = heap w /\ logger w' = logger w.
Proof.
  intros Hr. rewrite SafeLog_when_ready, Log_when_ready by exact Hr.
  split; [reflexivity|]. eexists. split; [reflexivity|].
  rewrite stdout_log_event. repeat split.
Qed.

Lemma SafeLog_ready_is_Log_witness :
  SafeLog "hello" (set_logger {| instance := "Logger" |} world0) =
  Log "hello" (set_logger {| instance := "Logger" |} world0).
Proof.
  apply (SafeLog_ready_is_Log "hello" (set_logger {| instance := "Logger" |} world0)).
  reflexivity.
Defined.

(** C4. When the logger is not initialised, [SafeLog msg] wraps [msg] in a
    [logDetail], puts it in a new channel of capacity 1, appends that
    channel to [chann] and returns nil; it prints nothing, and the
    channels that were already there are unchanged. *)
Theorem SafeLog_enqueues (msg : string) (w : World) :
  is_ready w = false ->
  exists w',
    SafeLog msg w = Ok nil_error w' /\
    chann w' = chann w ++ [length (heap w)] /\
    heap w' = heap w ++ [{| chan_cap := 1;
                            chan_buf := [{| message := msg |}];
                            chan_closed := false |}] /\
    stdout w' = stdout w /\
    logger w' = logger w.
Proof.
  intros Hr. exists (enqueued msg w).
  split; [apply SafeLog_when_not_ready; exact Hr|].
  split; [reflexivity|]. split; [reflexivity|].
  split; [apply stdout_enqueued | reflexivity].
Qed.

Lemma SafeLog_enqueues_witness :
  exists w',
    SafeLog "hello" world0 = Ok nil_error w' /\
    chann w' = [0%nat] /\
    heap w' = [{| chan_cap := 1;
                  chan_buf := [{| message := "hello" |}];
                  chan_closed := false |}] /\
    stdout w' = [] /\
    logger w' = {| instance := EmptyString |}.
Proof. apply (SafeLog_enqueues "hello" world0). reflexivity. Defined.

(** C10. [SafeLog] returns nil for every payload and in every state,
    initialised or not: it never panics, never blocks and never returns
    an error. *)
Theorem SafeLog_returns_nil (msg : string) (w : World) :
  exists w', SafeLog msg w = Ok nil_error w'.
Proof.
  destruct (is_ready w) eqn:Hr.
  - eexists. apply SafeLog_when_ready. exact Hr.
  - eexists. apply SafeLog_when_not_ready. exact Hr.
Qed.

(** C7. The entries queued by [SafeLog] are run by [Init] and by nobody
    else.  Each [SafeLog] call made before [Init] has returned nil, with
    nothing printed, before any replay happens; the [Log] call of the
    replay is made inside [Init], where its line is printed and its
    result (always nil) is known, and [Init] hands none of it back: it
    returns nothing. *)
Theorem deferred_fire_and_forget (cs : list call) (w : World) :
  queue_ok w -> is_ready w = false -> 0 < wg w -> no_init cs = true ->
  exists w1 outs w2,
    run_calls cs w = Ok (early_result <$> cs) w1 /\
    stdout w1 = stdout w /\
    Init_outcomes w1 = Ok outs w2 /\
    Init w1 = Ok tt w2 /\
    outs = replicate (length (pending w ++ safe_payloads cs)) nil_error /\
    stdout w2 = stdout w1 ++ init_line :: (log_line <$> (pending w ++ safe_payloads cs)).
Proof.
  intros Hq Hr Hwg Hn.
  destruct (calls_before_init cs w Hq Hr Hn)
    as (w1 & Hrun & Hq1 & Hr1 & Hw1 & Hout1 & Hcl1 & Hp1 & Hlen1).
  destruct (Init_outcomes_ok w1 Hq1) as (w2 & HInit & Hr2 & Hc2 & Hw2 & Hout2 & _); [lia|].
  exists w1, (replicate (length (chann w1)) nil_error), w2.
  split; [exact Hrun|]. split; [exact Hout1|]. split; [exact HInit|].
  split; [rewrite Init_forget, HInit; reflexivity|].
  split; [|rewrite Hout2, Hp1; reflexivity].
  rewrite <- Hp1, pending_length by exact Hq1. reflexivity.
Qed.

Lemma deferred_fire_and_forget_witness :
  exists w1 outs w2,
    run_calls [CSafeLog "a"; CSafeLog "b"] main_after_add
      = Ok [Some nil_error; Some nil_error] w1 /\
    stdout w1 = [] /\
    Init_outcomes w1 = Ok outs w2 /\
    Init w1 = Ok tt w2 /\
    outs = [nil_error; nil_error] /\
    stdout w2 = [init_line; log_line "a"; log_line "b"].
Proof.
  destruct (deferred_fire_and_forget [CSafeLog "a"; CSafeLog "b"] main_after_add)
    as (w1 & outs & w2 & Hrun & Hout1 & Hobs & HInit & Houts & Hout2).
  - apply queue_okb_correct. reflexivity.
  - reflexivity.
  - reflexivity.
  - reflexivity.
  - exists w1, outs, w2. rewrite Hout1 in Hout2.
    split; [exact Hrun|]. split; [exact Hout1|]. split; [exact Hobs|].
    split; [exact HInit|]. split; [exact Houts | exact Hout2].
Defined.

(** ** Readiness *)

Lemma Log_logger msg w e w' : Log msg w = Ok e w' -> logger w' = logger w.
Proof.
  destruct (is_ready w) eqn:Hr.
  - rewrite Log_when_ready by exact Hr. intros [= _ <-]. reflexivity.
  - rewrite Log_when_not_ready by exact Hr. intros [= _ <-]. reflexivity.
Qed.

Lemma SafeLog_logger msg w e w' : SafeLog msg w = Ok e w' -> logger w' = logger w.
Proof.
  destruct (is_ready w) eqn:Hr.
  - rewrite SafeLog_when_ready by exact Hr. intros [= _ <-]. reflexivity.
  - rewrite SafeLog_when_not_ready by exact Hr. intros [= _ <-]. reflexivity.
Qed.

Lemma chan_recv_logger c w v w' : chan_recv c w = Ok v w' -> logger w' = logger w.
Proof.
  unfold chan_recv. destruct (heap w !! c) as [h|]; [|discriminate].
  destruct (chan_buf h); [destruct (chan_closed h); [|discriminate]|];
    intros [= _ <-]; reflexivity.
Qed.

Lemma chan_close_logger c w u w' : chan_close c w = Ok u w' -> logger w' = logger w.
Proof.
  unfold chan_close. destruct (heap w !! c) as [h|]; [|discriminate].
  destruct (chan_closed h); [discriminate|]. intros [= _ <-]. reflexivity.
Qed.

Lemma replay_logger c w u w' : replay c w = Ok u w' -> logger w' = logger w.
Proof.
  unfold replay, bind.
  destruct (chan_recv c w) as [v w1| |] eqn:H1; [|discriminate|discriminate].
  destruct (Log (message v) w1) as [e w2| |] eqn:H2; [|discriminate|discriminate].
  intros H3.
  rewrite (chan_close_logger _ _ _ _ H3), (Log_logger _ _ _ _ H2).
  exact (chan_recv_logger _ _ _ _ H1).
Qed.

Lemma range_replay_logger cs : forall w u w',
  range cs replay w = Ok u w' -> logger w' = logger w.
Proof.
  induction cs as [|c cs IH]; intros w u w'.
  - intros [= _ <-]. reflexivity.
  - cbn [range]. unfold bind.
    destruct (replay c w) as [u1 w1| |] eqn:H1; [|discriminate|discriminate].
    intros H2. rewrite (IH _ _ _ H2). exact (replay_logger _ _ _ _ H1).
Qed.

Lemma Init_sets_ready w u w' : Init w = Ok u w' -> is_ready w' = true.
Proof.
  unfold Init. go_unfold. cbn beta iota.
  match goal with |- context [range ?cs replay ?w1] =>
    destruct (range cs replay w1) as [u1 w2| |] eqn:H1 end;
    [|discriminate|discriminate].
  unfold wg_Done, wg_Add. destruct (wg w2 + -1 <? 0); [discriminate|].
  intros [= _ <-]. unfold is_ready. cbn [logger set_wg].
  rewrite (range_replay_logger _ _ _ _ H1). reflexivity.
Qed.

Lemma run_call_ready c w r w' :
  run_call c w = Ok r w' ->
  is_ready w' = (is_init c || is_ready w).
Proof.
  destruct c as [msg|msg|]; cbn [run_call is_init orb]; unfold bind, ret.
  - destruct (Log msg w) as [e w1| |] eqn:H; [|discriminate|discriminate].
    intros [= _ <-]. unfold is_ready. rewrite (Log_logger _ _ _ _ H). reflexivity.
  - destruct (SafeLog msg w) as [e w1| |] eqn:H; [|discriminate|discriminate].
    intros [= _ <-]. unfold is_ready. rewrite (SafeLog_logger _ _ _ _ H). reflexivity.
  - destruct (Init w) as [u w1| |] eqn:H; [|discriminate|discriminate].
    intros [= _ <-]. exact (Init_sets_ready _ _ _ H).
Qed.

(** C5. The readiness check starts false and moves only from false to
    true.  Along any sequence of calls of [Log], [SafeLog] and [Init],
    from any state: once the check is true it is true after every later
    call; the calls other than [Init] never change it; and it is true
    after any sequence in which [Init] has run. *)
Theorem readiness_never_reverts (cs : list call) (w w' : World)
    (rs : list (option error)) :
  run_calls cs w = Ok rs w' ->
  is_ready world0 = false /\
  (is_ready w = true -> is_ready w' = true) /\
  (no_init cs = true -> is_ready w' = is_ready w) /\
  (no_init cs = false -> is_ready w' = true).
Proof.
  intros Hrun. split; [reflexivity|].
  assert (Hgen : is_ready w' = (negb (no_init cs) || is_ready w)).
  { revert w rs Hrun. induction cs as [|c cs IH]; intros w rs.
    - intros [= _ <-]. reflexivity.
    - cbn [run_calls]. unfold bind, ret.
      destruct (run_call c w) as [r w1| |] eqn:H1; [|discriminate|discriminate].
      destruct (run_calls cs w1) as [rs1 w2| |] eqn:H2; [|discriminate|discriminate].
      intros [= _ <-]. rewrite (IH _ _ H2), (run_call_ready _ _ _ _ H1).
      cbn [no_init forallb]. fold (no_init cs).
      destruct (is_init c), (no_init cs), (is_ready w); reflexivity. }
  rewrite Hgen. split; [|split].
  - intros ->. apply orb_true_r.
  - intros ->. reflexivity.
  - intros ->. reflexivity.
Qed.

Lemma readiness_never_reverts_witness :
  exists rs w',
    run_calls [CLog "x"; CSafeLog "a"; CInit; CSafeLog "b"; CLog "y"] main_after_add
      = Ok rs w' /\
    is_ready w' = true.
Proof.
  eexists. eexists. split.
  - vm_compute. reflexivity.
  - eapply (readiness_never_reverts
              [CLog "x"; CSafeLog "a"; CInit; CSafeLog "b"; CLog "y"] main_after_add).
    + vm_compute. reflexivity.
    + reflexivity.
Defined.

(** ** No panic, nothing blocked *)





(** Outside that contract: a second [Init] finds the queued channels
    closed and panics on the first [close]. *)
Example second_Init_panics :
  run_calls [CSafeLog "a"; CInit; CInit] (set_wg 2 world0)
  = Panic "close of closed channel".
Proof. reflexivity. Qed.

(** ** The startup scenario of [main] *)

(** Whenever [Init] wakes up after the loop, the run is the same. *)
Lemma main_late_init (init_at : nat) (w : World) :
  (5 <= init_at)%nat -> main init_at w = main 5 w.
Proof.
  intros H. unfold main.
  destruct (decide (5 <= Z.of_nat init_at)) as [_|Hd]; [|lia].
  destruct (decide (5 <= Z.of_nat 5)) as [_|Hd]; [|lia].
  change (seqZ 0 5) with [0; 1; 2; 3; 4]. cbn [range].
  unfold main_loop_step.
  repeat match goal with
         | |- context [decide (?a = ?b)] => destruct (decide (a = b)) as [He|_]; [lia|]
         end.
  reflexivity.
Qed.

(** C6. In [main], when the five iterations of the loop are over before
    the [Init] goroutine wakes up: the program terminates; the five
    [Caller1] calls return the error "logger instance not initialized"
    (and [main] prints one error line for each); the five [Caller2] calls
    return nil (no error line for them); then [Init] prints its line and
    [Log] is run exactly five times, on the five [Caller2] payloads in the
    order of the calls. *)
Theorem main_scenario (init_at : nat) :
  (5 <= init_at)%nat ->
  exists w' w'',
    main init_at world0 = Ok tt w' /\
    stdout w' = expected_output /\
    run_calls scenario_calls main_after_add = Ok scenario_results w'' /\
    chann w' = chann w'' /\ heap w' = heap w'' /\ closes w' = closes w'' /\
    stdout w'' = [ "Init" +:+ newline;
                   replayed_line "1"; replayed_line "2"; replayed_line "3";
                   replayed_line "4"; replayed_line "5" ].
Proof.
  intros H. rewrite (main_late_init init_at world0 H).
  eexists. eexists.
  split; [vm_compute; reflexivity|].
  split; [vm_compute; reflexivity|].
  split; [vm_compute; reflexivity|].
  repeat split; vm_compute; reflexivity.
Qed.

Lemma main_scenario_witness :
  exists w', main 5 world0 = Ok tt w' /\ stdout w' = expected_output.
Proof.
  destruct (main_scenario 5) as (w' & w'' & Hmain & Hout & _).
  - lia.
  - exists w'. split; [exact Hmain | exact Hout].
Defined.

(** With an earlier wake-up the strict calls made after it succeed. *)
Example main_early_init :
  option_map stdout (result_world (main 4 world0)) =
  Some [ error_line "1"; error_line "2"; error_line "3"; error_line "4";
         "Init" +:+ newline;
         replayed_line "1"; replayed_line "2"; replayed_line "3"; replayed_line "4";
         log_line "func: caller1 value-5"; log_line "func: caller2 value-5" ].
Proof. vm_compute. reflexivity. Qed.

(** ** Overlapping calls *)

Module InterleavedFacts.
Import Interleaved.

(** Five steps of a goroutine on its own are one call of [SafeLog]. *)
Lemma run_alone_SafeLog msg w :
  run_alone 5 (AtEntry msg) w = (let* e := SafeLog msg in ret (Returned e)) w.
Proof.
  destruct (is_ready w) eqn:Hr.
  - unfold bind at 1. rewrite SafeLog_when_ready by exact Hr.
    unfold is_ready in Hr. cbn [run_alone step]. go_unfold. rewrite Hr.
    cbn [step]. go_unfold. cbn [logger log_event]. rewrite Hr. reflexivity.
  - unfold bind at 1. rewrite SafeLog_when_not_ready by exact Hr.
    unfold is_ready in Hr. cbn [run_alone step]. go_unfold. rewrite Hr.
    cbn [step]. unfold bind at 1. unfold make_chan, ret at 1.
    cbn [step]. unfold bind at 1. unfold chan_send.
    cbn [heap set_heap log_event].
    rewrite list_lookup_middle by reflexivity.
    cbn [chan_closed chan_buf chan_cap length Nat.ltb Nat.leb].
    rewrite send_on_fresh. unfold ret at 1.
    cbn [step]. go_unfold.
    cbn [step]. go_unfold.
    unfold enqueued, set_chann, log_event, set_heap. cbn.
    rewrite <- app_assoc. reflexivity.
Qed.

Lemma run_schedule_app s1 s2 ts w :
  run_schedule (s1 ++ s2) ts w =
  (let* ts' := run_schedule s1 ts in run_schedule s2 ts') w.
Proof.
  revert ts w. induction s1 as [|i s1 IH]; intros ts w; [reflexivity|].
  cbn [run_schedule app]. unfold bind at 1 2 3.
  destruct (step_at i ts w) as [ts1 w1| |]; [|reflexivity|reflexivity].
  rewrite IH. reflexivity.
Qed.

(** A goroutine scheduled [k] times in a row. *)
Lemma run_schedule_replicate k : forall i ts p w,
  ts !! i = Some p ->
  run_schedule (replicate k i) ts w =
  (let* p' := run_alone k p in ret (<[i := p']> ts)) w.
Proof.
  induction k as [|k IH]; intros i ts p w Hi.
  - cbn. unfold bind, ret. rewrite list_insert_id by exact Hi. reflexivity.
  - cbn [replicate run_schedule run_alone]. unfold bind at 1 2 3.
    unfold step_at. rewrite Hi. unfold bind at 1.
    destruct (step p w) as [p1 w1| |]; [|reflexivity|reflexivity].
    unfold ret at 1.
    pose proof (lookup_lt_Some _ _ _ Hi) as Hlt.
    rewrite (IH i (<[i := p1]> ts) p1 w1) by (apply list_lookup_insert_eq; exact Hlt).
    unfold bind, ret. destruct (run_alone k p1 w1) as [p2 w2| |]; [|reflexivity|reflexivity].
    rewrite list_insert_insert_eq. reflexivity.
Qed.

(** The serial schedule, started when [done] goroutines have returned. *)
Lemma run_serial_from msgs : forall (done : list pc) w,
  run_schedule (flat_map (fun i => replicate 5 i) (seq (length done) (length msgs)))
               (done ++ (AtEntry <$> msgs)) w =
  (let* ps := SafeLog_each msgs in ret (done ++ ps)) w.
Proof.
  induction msgs as [|msg msgs IH]; intros done w; [reflexivity|].
  cbn [length seq flat_map fmap list_fmap SafeLog_each].
  rewrite run_schedule_app. unfold bind.
  rewrite (run_schedule_replicate 5 (length done) _ (AtEntry msg))
    by (apply list_lookup_middle; reflexivity).
  unfold bind. rewrite run_alone_SafeLog. unfold bind, ret.
  destruct (SafeLog msg w) as [e w1| |]; [|reflexivity|reflexivity].
  replace (<[length done := Returned e]> (done ++ AtEntry msg :: (AtEntry <$> msgs)))
    with ((done ++ [Returned e]) ++ (AtEntry <$> msgs)).
  2:{ rewrite insert_app_r_alt by lia.
      replace (length done - length done)%nat with 0%nat by lia.
      cbn. rewrite <- app_assoc. reflexivity. }
  replace (S (length done)) with (length (done ++ [Returned e]))
    by (rewrite length_app; cbn; lia).
  rewrite IH. unfold bind, ret.
  destruct (SafeLog_each msgs w1) as [ps w2| |]; [|reflexivity|reflexivity].
  rewrite <- app_assoc. reflexivity.
Qed.

(** Calls made one after the other, before [Init]. *)
Lemma SafeLog_each_before_init msgs : forall w,
  queue_ok w -> is_ready w = false ->
  exists w',
    SafeLog_each msgs w = Ok ((fun _ => Returned nil_error) <$> msgs) w' /\
    queue_ok w' /\
    length (chann w') = (length (chann w) + length msgs)%nat /\
    pending w' = pending w ++ msgs.
Proof.
  induction msgs as [|msg msgs IH]; intros w Hq Hr.
  - exists w. cbn. rewrite app_nil_r, Nat.add_0_r. tauto.
  - destruct (IH (enqueued msg w)) as (w' & Hrun & Hq' & Hlen & Hp);
      [apply queue_ok_enqueued; exact Hq | exact Hr |].
    exists w'. cbn [SafeLog_each]. unfold bind, ret.
    rewrite SafeLog_when_not_ready by exact Hr. rewrite Hrun.
    split; [reflexivity|]. split; [exact Hq'|]. split.
    + rewrite Hlen. cbn [chann enqueued length]. rewrite length_app. cbn. lia.
    + rewrite Hp, pending_enqueued by exact Hq. rewrite <- app_assoc. reflexivity.
Qed.

End InterleavedFacts.

(** C9, as the code has it.  The package takes no lock and uses no atomic
    operation on [logger] or [chann].  What holds is this: when the calls
    of [SafeLog] do not overlap (each goroutine makes all the steps of its
    call before the next one starts), the run is the run of the calls made
    one after the other, and before [Init] it loses nothing: all the calls
    return nil, the queue grows by one entry per call, and the payloads
    wait in the order of the calls. *)
Theorem serial_calls_lose_nothing (msgs : list string) (w : World) :
  Interleaved.run_schedule (Interleaved.serial 5 (length msgs))
                           (Interleaved.AtEntry <$> msgs) w
    = Interleaved.SafeLog_each msgs w /\
  (queue_ok w -> is_ready w = false ->
   exists ts w',
     Interleaved.run_schedule (Interleaved.serial 5 (length msgs))
                              (Interleaved.AtEntry <$> msgs) w = Ok ts w' /\
     forallb Interleaved.returned ts = true /\
     length (chann w') = (length (chann w) + length msgs)%nat /\
     pending w' = pending w ++ msgs).
Proof.
  assert (Hserial :
    Interleaved.run_schedule (Interleaved.serial 5 (length msgs))
                             (Interleaved.AtEntry <$> msgs) w
    = Interleaved.SafeLog_each msgs w).
  { pose proof (InterleavedFacts.run_serial_from msgs [] w) as H.
    cbn [length app] in H. unfold Interleaved.serial. rewrite H.
    unfold bind, ret. destruct (Interleaved.SafeLog_each msgs w); reflexivity. }
  split; [exact Hserial|].
  intros Hq Hr.
  destruct (InterleavedFacts.SafeLog_each_before_init msgs w Hq Hr)
    as (w' & Hrun & _ & Hlen & Hp).
  eexists. exists w'. rewrite Hserial. split; [exact Hrun|].
  split; [|split; [exact Hlen | exact Hp]].
  clear. induction msgs as [|m msgs IH]; [reflexivity | exact IH].
Qed.

Lemma serial_calls_lose_nothing_witness :
  exists ts w',
    Interleaved.run_schedule (Interleaved.serial 5 2)
                             (Interleaved.AtEntry <$> ["a"; "b"]) world0 = Ok ts w' /\
    forallb Interleaved.returned ts = true /\
    length (chann w') = 2%nat /\
    pending w' = ["a"; "b"].
Proof.
  apply (serial_calls_lose_nothing ["a"; "b"] world0).
  - apply queue_okb_correct. reflexivity.
  - reflexivity.
Defined.

(** C9, as stated, fails.  Two calls of [SafeLog] overlap: both goroutines
    read [chann] before either writes it back.  Both calls return nil, and
    the queue holds one entry, the second: the first payload is lost, so
    the claim that no schedule loses an enqueue is false. *)
Lemma overlapping_calls_lose_update :
  (exists ts w',
     Interleaved.run_schedule [0; 0; 0; 0; 1; 1; 1; 1; 0; 1]%nat
                              (Interleaved.AtEntry <$> ["a"; "b"]) world0 = Ok ts w' /\
     ts = [Interleaved.Returned nil_error; Interleaved.Returned nil_error] /\
     chann w' = [1%nat] /\
     pending w' = ["b"]) /\
  ~ Interleaved.no_lost_update.
Proof.
  split.
  - eexists. eexists. split; [vm_compute; reflexivity|]. repeat split.
  - intros H.
    specialize (H [0; 0; 0; 0; 1; 1; 1; 1; 0; 1]%nat ["a"; "b"]).
    vm_compute in H.
    specialize (H _ _ eq_refl eq_refl). discriminate H.
Qed.

(** * Further properties of the package *)

(** ** The whole life of the logger *)

Lemma pending_drained (h : list hchan) (cs : list chan) :
  (forall c, c ∈ cs ->
     h !! c = Some {| chan_cap := 1; chan_buf := []; chan_closed := true |}) ->
  omap (front h) cs = [].
Proof.
  induction cs as [|c cs IH]; intros H; [reflexivity|].
  cbn. unfold front at 1. rewrite (H c) by left. cbn.
  apply IH. intros c' Hc'. apply H. right. exact Hc'.
Qed.

(** X1. Calls of [Log] and [SafeLog], then [Init], then more calls, made
    one at a time.  Before [Init], every [Log] returns the error and every
    [SafeLog] returns nil; after it both return nil.  The output is the
    [Init] line, the payloads given to [SafeLog] before [Init] in call
    order, then the payloads of the later calls in call order: a payload
    given to [SafeLog] is printed once whenever the call is made, and a
    payload given to [Log] before [Init] is never printed.  At the end
    nothing waits in the queue, and the wait group is down by one. *)
Theorem logger_lifetime (pre post : list call) (w : World) :
  queue_ok w -> is_ready w = false -> 0 < wg w ->
  no_init pre = true -> no_init post = true ->
  exists w',
    run_calls (pre ++ CInit :: post) w =
      Ok ((early_result <$> pre) ++ None :: ((fun _ => Some nil_error) <$> post)) w' /\
    stdout w' = stdout w ++ init_line ::
      (log_line <$> (pending w ++ safe_payloads pre ++ payloads post)) /\
    pending w' = [] /\
    wg w' = wg w - 1.
Proof.
  intros Hq Hr Hwg Hpre Hpost.
  destruct (calls_before_init pre w Hq Hr Hpre)
    as (w1 & Hrun1 & Hq1 & Hr1 & Hw1 & Hout1 & _ & Hp1 & _).
  destruct (Init_outcomes_ok w1 Hq1) as (w2 & HInit & Hr2 & Hc2 & Hw2 & Hout2 & _ & _ & Hh2);
    [lia|].
  destruct (calls_after_init post w2 Hr2 Hpost)
    as (w3 & Hrun3 & _ & Hc3 & Hh3 & Hw3 & Hout3 & _).
  exists w3. split; [|split; [|split]].
  - rewrite run_calls_app, Hrun1. cbn [run_calls run_call]. unfold bind, ret.
    rewrite Init_forget, HInit. cbn [forget]. rewrite Hrun3. reflexivity.
  - rewrite Hout3, Hout2, Hout1, Hp1. rewrite <- app_assoc. cbn [app].
    rewrite !fmap_app, <- !app_assoc. reflexivity.
  - unfold pending. rewrite Hh3, Hc3, Hc2. apply pending_drained. exact Hh2.
  - lia.
Qed.

Lemma logger_lifetime_witness :
  exists w',
    run_calls ([CLog "x"; CSafeLog "a"] ++ CInit :: [CLog "y"; CSafeLog "b"]) main_after_add
      = Ok [Some (errors_New not_initialized_text); Some nil_error; None;
            Some nil_error; Some nil_error] w' /\
    stdout w' = [init_line; log_line "a"; log_line "y"; log_line "b"] /\
    pending w' = [] /\
    wg w' = 0.
Proof.
  apply (logger_lifetime [CLog "x"; CSafeLog "a"] [CLog "y"; CSafeLog "b"] main_after_add).
  - apply queue_okb_correct. reflexivity.
  - reflexivity.
  - reflexivity.
  - reflexivity.
  - reflexivity.
Defined.

(** ** [Init] is for one use *)

(** X2. [Init] does not reset [chann]: it leaves in it the channels it has
    closed.  So when at least one entry was queued, a second call of
    [Init] receives the zero value from the first channel, logs an empty
    message and panics on [close]. *)
Theorem Init_twice_panics (w : World) :
  queue_ok w -> chann w <> [] -> 0 < wg w ->
  exists w1,
    Init w = Ok tt w1 /\
    chann w1 = chann w /\
    Init w1 = Panic "close of closed channel".
Proof.
  intros Hq Hne Hwg.
  destruct (Init_outcomes_ok w Hq Hwg) as (w1 & HInit & Hr1 & Hc1 & _ & _ & _ & _ & Hh1).
  exists w1. split; [rewrite Init_forget, HInit; reflexivity|].
  split; [exact Hc1|].
  destruct (chann w) as [|c cs] eqn:Hcs; [contradiction|].
  specialize (Hh1 c (list_elem_of_here c cs)).
  unfold Init. go_unfold. cbn beta iota.
  change (chann (set_logger _ _)) with (chann w1). rewrite Hc1.
  cbn [range]. unfold bind at 1. unfold replay, bind at 1. unfold chan_recv.
  cbn [heap set_logger log_event]. rewrite Hh1. cbn [chan_buf chan_closed].
  unfold bind at 1. rewrite Log_when_ready by reflexivity.
  unfold chan_close. cbn [heap set_logger log_event]. rewrite Hh1. reflexivity.
Qed.

Lemma Init_twice_panics_witness :
  exists w0 w1,
    SafeLog "a" (set_wg 2 world0) = Ok nil_error w0 /\
    Init w0 = Ok tt w1 /\
    Init w1 = Panic "close of closed channel".
Proof.
  exists (enqueued "a" (set_wg 2 world0)).
  destruct (Init_twice_panics (enqueued "a" (set_wg 2 world0))) as (w1 & H1 & _ & H2).
  - apply queue_okb_correct. reflexivity.
  - discriminate.
  - reflexivity.
  - exists w1. split; [reflexivity|]. split; [exact H1 | exact H2].
Defined.

(** X3. [Init] ends with [wg.Done()].  Called with a wait group whose
    counter is not positive, it does all its work and then panics. *)
Theorem Init_needs_wait_group (w : World) :
  queue_ok w -> wg w <= 0 ->
  Init w = Panic "sync: negative WaitGroup counter".
Proof.
  intros [Hnd Hall] Hwg.
  set (w1 := set_logger {| instance := "Logger" |}
               (log_event (EvPrint init_line) (log_event (EvSleep (5 * Second)) w))).
  destruct (drain_ok (chann w) w1) as (w2 & Hrun & _ & _ & Hw & _);
    [reflexivity | exact Hnd | exact Hall |].
  rewrite Init_forget. unfold Init_outcomes. go_unfold. cbn beta iota.
  change (chann (set_logger _ _)) with (chann w).
  fold init_line. fold w1. rewrite Hrun.
  unfold wg_Done, wg_Add. rewrite Hw. cbn [wg w1 set_logger log_event].
  destruct (Z.ltb_spec (wg w + -1) 0) as [_|Hge]; [reflexivity | lia].
Qed.

Lemma Init_needs_wait_group_witness :
  Init world0 = Panic "sync: negative WaitGroup counter".
Proof.
  apply (Init_needs_wait_group world0).
  - apply queue_okb_correct. reflexivity.
  - reflexivity.
Defined.

(** ** A call that overlaps [Init] *)

(** The steps of [SafeLog] after its test of [logger] do not look at
    [logger] again: they queue the payload in any state. *)
Lemma run_alone_after_test msg w :
  Interleaved.run_alone 4 (Interleaved.AtMake msg) w
  = Ok (Interleaved.Returned nil_error) (enqueued msg w).
Proof.
  cbn [Interleaved.run_alone Interleaved.step].
  unfold bind, ret, make_chan.
  cbn [Interleaved.step]. unfold bind, ret, chan_send.
  cbn [heap set_heap log_event].
  rewrite list_lookup_middle by reflexivity.
  cbn [chan_closed chan_buf chan_cap length Nat.ltb Nat.leb].
  rewrite send_on_fresh.
  cbn [Interleaved.step]. go_unfold.
  cbn [Interleaved.step]. go_unfold.
  unfold enqueued, set_chann, log_event, set_heap. cbn.
  rewrite <- app_assoc. reflexivity.
Qed.

Lemma pending_enqueued_bound msg w :
  (forall c, c ∈ chann w -> (c < length (heap w))%nat) ->
  pending (enqueued msg w) = pending w ++ [msg].
Proof.
  intros Hb. unfold pending. cbn [chann heap enqueued].
  rewrite omap_app. f_equal.
  - apply omap_ext_elem. intros c Hc. apply front_app_l. exact (Hb c Hc).
  - cbn. unfold front. rewrite list_lookup_middle by reflexivity. reflexivity.
Qed.

(** X4. A call of [SafeLog] that tests [logger] before [Init] assigns it,
    and makes its other steps after [Init] has run, returns nil like any
    other, but its payload is not printed by [Init], and it is not printed
    by any later call of [Log] or [SafeLog] either: it stays in its
    channel, at the end of [chann]. *)
Theorem late_enqueue_never_replayed (msg : string) (post : list call) (w : World) :
  queue_ok w -> is_ready w = false -> 0 < wg w -> no_init post = true ->
  exists w2 w3 w4,
    Interleaved.step (Interleaved.AtEntry msg) w = Ok (Interleaved.AtMake msg) w /\
    Init w = Ok tt w2 /\
    Interleaved.run_alone 4 (Interleaved.AtMake msg) w2
      = Ok (Interleaved.Returned nil_error) w3 /\
    stdout w3 = stdout w ++ init_line :: (log_line <$> pending w) /\
    pending w3 = [msg] /\
    run_calls post w3 = Ok ((fun _ => Some nil_error) <$> post) w4 /\
    stdout w4 = stdout w3 ++ (log_line <$> payloads post) /\
    pending w4 = [msg].
Proof.
  intros Hq Hr Hwg Hpost.
  destruct (Init_outcomes_ok w Hq Hwg)
    as (w2 & HInit & Hr2 & Hc2 & _ & Hout2 & _ & Hlen2 & Hh2).
  assert (Hr3 : is_ready (enqueued msg w2) = true) by exact Hr2.
  destruct (calls_after_init post (enqueued msg w2) Hr3 Hpost)
    as (w4 & Hrun4 & _ & Hc4 & Hh4 & _ & Hout4 & _).
  assert (Hp3 : pending (enqueued msg w2) = [msg]).
  { rewrite pending_enqueued_bound.
    - unfold pending. rewrite Hc2, pending_drained by exact Hh2. reflexivity.
    - intros c Hc. rewrite Hc2 in Hc. rewrite Hlen2.
      exact (queue_ok_bound w c Hq Hc). }
  exists w2, (enqueued msg w2), w4.
  split.
  { unfold is_ready in Hr. cbn [Interleaved.step]. go_unfold. rewrite Hr. reflexivity. }
  split; [rewrite Init_forget, HInit; reflexivity|].
  split; [apply run_alone_after_test|].
  split; [rewrite stdout_enqueued; exact Hout2|].
  split; [exact Hp3|].
  split; [exact Hrun4|].
  split; [exact Hout4|].
  unfold pending. rewrite Hh4, Hc4. exact Hp3.
Qed.

Lemma late_enqueue_never_replayed_witness :
  exists w2 w3 w4,
    Init main_after_add = Ok tt w2 /\
    Interleaved.run_alone 4 (Interleaved.AtMake "late") w2
      = Ok (Interleaved.Returned nil_error) w3 /\
    run_calls [CSafeLog "next"] w3 = Ok [Some nil_error] w4 /\
    stdout w4 = [init_line; log_line "next"] /\
    pending w4 = ["late"].
Proof.
  destruct (late_enqueue_never_replayed "late" [CSafeLog "next"] main_after_add)
    as (w2 & w3 & w4 & _ & HInit & Hrun & Hout3 & _ & Hpost & Hout4 & Hp4).
  - apply queue_okb_correct. reflexivity.
  - reflexivity.
  - reflexivity.
  - reflexivity.
  - exists w2, w3, w4. rewrite Hout3 in Hout4.
    split; [exact HInit|]. split; [exact Hrun|]. split; [exact Hpost|].
    split; [exact Hout4 | exact Hp4].
Defined.

(** ** [main] under every schedule *)

(** X5. Whenever the [Init] goroutine wakes up (before the loop, between
    two iterations or after the loop), [main] terminates with the wait
    group at zero.  The [Caller1] calls made before the wake-up fail and
    get their error line, those made after it are logged at once; every
    [Caller2] payload is printed exactly once, in the order of the calls;
    and the channels queued before the wake-up are the channels closed. *)
Theorem main_any_wakeup (init_at : nat) :
  exists w',
    main init_at world0 = Ok tt w' /\
    is_ready w' = true /\ wg w' = 0 /\
    lines_among caller2_lines (stdout w') = caller2_lines /\
    lines_among error_lines (stdout w') = take init_at error_lines /\
    lines_among caller1_lines (stdout w') = drop init_at caller1_lines /\
    closes w' = chann w' /\
    length (chann w') = Nat.min init_at 5.
Proof.
  destruct (le_lt_dec 5 init_at) as [Hge|Hlt].
  - rewrite (main_late_init init_at world0 Hge).
    rewrite take_ge by exact Hge. rewrite drop_ge by exact Hge.
    replace (Nat.min init_at 5) with 5%nat by lia.
    eexists. split; [vm_compute; reflexivity|].
    repeat split; vm_compute; reflexivity.
  - do 5 (destruct init_at as [|init_at];
          [eexists; split; [vm_compute; reflexivity|];
           repeat split; vm_compute; reflexivity|]).
    lia.
Qed.

(** ** Overlapping calls, under every schedule *)

Module OverlapFacts.
Import Interleaved Overlap.















(** ** What overlapping calls can and cannot lose *)













End OverlapFacts.








